(** * Ground Control: a shallow embedding of the supervisor engine
    ([run_processes] and [run] in src/lib.rs) and of the command-line
    normalisation of src/config.rs. *)

From Stdlib Require Import List Bool Arith Lia Ascii String.
From stdpp Require Import base gmap strings.
Import ListNotations.

(** ** Rust's [Result] *)

Inductive Result (T E : Type) : Type :=
| Ok (t : T)
| Err (e : E).
Arguments Ok {T E} t.
Arguments Err {T E} e.

Definition is_ok {T E} (r : Result T E) : bool :=
  match r with Ok _ => true | Err _ => false end.

(** ** Error enums of src/lib.rs *)

Inductive StartProcessError : Type :=
| PreRunFailed
| PreRunAborted (code : Z)
| PreRunKilled
| RunFailed.

Inductive StopProcessError : Type :=
| StopFailed
| ProcessAborted (code : Z)
| ProcessKilled
| PostRunFailed.

(** ** Environment of the engine

    The engine reads two channels: the trigger channel it creates
    ([shutdown_sender] / [shutdown_receiver], a tokio unbounded mpsc of
    [()]) and the external [shutdown] receiver it is given.  Everything
    that happens concurrently with the engine (a value or closure on the
    external input, a child exiting and notifying through its sender
    clone, a child's sender being dropped) is an [env_event].  Such events
    are only observable by the engine when it reads the trigger channel,
    so they are delivered while the engine is blocked on a receive. *)

Inductive env_event : Type :=
| ExtSend        (* a value is sent on the external shutdown input *)
| ExtClose       (* the external shutdown input is closed *)
| ChildNotify    (* a live child sender sends [()] on the trigger channel *)
| ChildRelease.  (* a live child sender clone is dropped *)

(** The task spawned by [tokio::spawn] that forwards the external input. *)
Inductive bridge_state : Type :=
| BridgeNotSpawned
| BridgeWaiting   (* holds [external_shutdown_sender], awaits [shutdown.recv()] *)
| BridgeFinished. (* has sent and dropped its sender *)

(** Possible ends of a computation: a value, the panic of an [expect],
    or waiting on a channel for an event the environment never produces. *)
Inductive outcome (A : Type) : Type :=
| Done (a : A)
| Panicked
| Blocked.
Arguments Done {A} a.
Arguments Panicked {A}.
Arguments Blocked {A}.

Module lib.

Section Engine.

(** [SP]: the [StartProcess] implementors; [MP]: the handles. *)
Context {SP MP : Type}.

(** The collaborators' results (the trait methods of [StartProcess] and
    [ManageProcess]); any implementation is allowed. *)
Variable start_process : SP -> Result MP StartProcessError.
Variable stop_process : MP -> Result unit StopProcessError.

(** Modelled from the spec: the channel behaviour of the process handles
    (src/process.rs is not part of the sources).  "wires its eventual
    termination to send exactly one notification on notify_sender":
    [stop_notifies p] notifications are sent by the child of [p] while it
    is being stopped, and [stop_releases p] says whether stopping [p]
    drops the sender clone the handle holds. *)
Variable stop_notifies : MP -> nat.
Variable stop_releases : MP -> bool.

(** Observable actions of the engine. *)
Inductive event : Type :=
| EvStart (sp : SP)           (* [sp.start_process(..)] is called *)
| EvStop (p : MP)             (* [process.stop_process()] is called *)
| EvRecv (r : option unit)    (* [shutdown_receiver.recv()] returns [r] *)
| EvDropSender.               (* [drop(shutdown_sender)] *)

Record world : Type := mkWorld {
  w_trace : list event;          (* engine actions, in order *)
  w_engine_tx : bool;            (* [shutdown_sender] still alive *)
  w_bridge : bridge_state;
  w_child_tx : nat;              (* live sender clones handed to processes *)
  w_pending : nat;               (* queued [()] on the trigger channel *)
  w_ext_pending : nat;           (* queued values on the external input *)
  w_ext_closed : bool;           (* external input closed *)
  w_script : list env_event      (* what the environment does next *)
}.

Definition set_trace (t : list event) (w : world) : world :=
  mkWorld t (w_engine_tx w) (w_bridge w) (w_child_tx w) (w_pending w)
    (w_ext_pending w) (w_ext_closed w) (w_script w).
Definition set_engine_tx (b : bool) (w : world) : world :=
  mkWorld (w_trace w) b (w_bridge w) (w_child_tx w) (w_pending w)
    (w_ext_pending w) (w_ext_closed w) (w_script w).
Definition set_bridge (b : bridge_state) (w : world) : world :=
  mkWorld (w_trace w) (w_engine_tx w) b (w_child_tx w) (w_pending w)
    (w_ext_pending w) (w_ext_closed w) (w_script w).
Definition set_child_tx (n : nat) (w : world) : world :=
  mkWorld (w_trace w) (w_engine_tx w) (w_bridge w) n (w_pending w)
    (w_ext_pending w) (w_ext_closed w) (w_script w).
Definition set_pending (n : nat) (w : world) : world :=
  mkWorld (w_trace w) (w_engine_tx w) (w_bridge w) (w_child_tx w) n
    (w_ext_pending w) (w_ext_closed w) (w_script w).
Definition set_ext (n : nat) (c : bool) (w : world) : world :=
  mkWorld (w_trace w) (w_engine_tx w) (w_bridge w) (w_child_tx w)
    (w_pending w) n c (w_script w).
Definition set_script (s : list env_event) (w : world) : world :=
  mkWorld (w_trace w) (w_engine_tx w) (w_bridge w) (w_child_tx w)
    (w_pending w) (w_ext_pending w) (w_ext_closed w) s.

(** A state monad with the three outcomes. *)
Definition M (A : Type) : Type := world -> outcome A * world.

Definition ret {A} (a : A) : M A := fun w => (Done a, w).

Definition bind {A B} (m : M A) (k : A -> M B) : M B :=
  fun w =>
    match m w with
    | (Done a, w') => k a w'
    | (Panicked, w') => (Panicked, w')
    | (Blocked, w') => (Blocked, w')
    end.

Definition panic {A} : M A := fun w => (Panicked, w).

Definition modify (f : world -> world) : M unit := fun w => (Done tt, f w).

Definition emit (e : event) : M unit :=
  modify (fun w => set_trace (w_trace w ++ [e]) w).

Notation "'let*' x := m 'in' k" := (bind m (fun x => k))
  (at level 200, x name, m at level 100, k at level 200).
Notation "m ;; k" := (bind m (fun _ => k)) (at level 100, right associativity).

(** Number of live senders of the trigger channel. *)
Definition senders (w : world) : nat :=
  (if w_engine_tx w then 1 else 0)
  + (match w_bridge w with BridgeWaiting => 1 | _ => 0 end)
  + w_child_tx w.

(** Effect of one environment event. *)
Definition apply_env (e : env_event) (w : world) : world :=
  match e with
  | ExtSend =>
      if w_ext_closed w then w
      else set_ext (S (w_ext_pending w)) (w_ext_closed w) w
  | ExtClose => set_ext (w_ext_pending w) true w
  | ChildNotify =>
      match w_child_tx w with
      | 0 => w
      | S _ => set_pending (S (w_pending w)) w
      end
  | ChildRelease => set_child_tx (pred (w_child_tx w)) w
  end.

(** The bridge task can run when [shutdown.recv()] is ready: a value is
    queued or the input is closed. *)
Definition bridge_ready (w : world) : bool :=
  match w_bridge w with
  | BridgeWaiting => (0 <? w_ext_pending w) || w_ext_closed w
  | _ => false
  end.

(** The bridge task body: [let _ = shutdown.recv().await;] (a value or
    [None], both ignored), [let _ = external_shutdown_sender.send(());],
    then the task ends and its sender is dropped. *)
Definition bridge_run (w : world) : world :=
  let w1 := match w_ext_pending w with
            | S n => set_ext n (w_ext_closed w) w   (* Some(()) *)
            | 0 => w                                 (* None *)
            end in
  set_bridge BridgeFinished (set_pending (S (w_pending w1)) w1).

(** [shutdown_receiver.recv().await]: a queued message is returned first;
    with no message and no sender the channel is closed ([None]);
    otherwise the engine waits, while the bridge or the environment act. *)
Fixpoint recv_wait (s : list env_event) (w : world)
  : outcome (option unit) * world :=
  match w_pending w with
  | S n => (Done (Some tt), set_script s (set_pending n w))
  | 0 =>
      if senders w =? 0 then (Done None, set_script s w)
      else if bridge_ready w then
        let w1 := bridge_run w in
        (Done (Some tt), set_script s (set_pending (pred (w_pending w1)) w1))
      else
        match s with
        | [] => (Blocked, set_script [] w)
        | e :: s' => recv_wait s' (apply_env e w)
        end
  end.

Definition recv : M (option unit) :=
  fun w =>
    match recv_wait (w_script w) w with
    | (Done r, w') => (Done r, set_trace (w_trace w' ++ [EvRecv r]) w')
    | (Panicked, w') => (Panicked, w')
    | (Blocked, w') => (Blocked, w')
    end.

(** [sp.start_process(shutdown_sender.clone())].  The clone goes to the
    launcher.  Modelled from the spec ("On any error, the launcher must
    leave no child processes behind"): on [Err] the clone is dropped; on
    [Ok] it is held by the returned handle. *)
Definition start_op (sp : SP) : M (Result MP StartProcessError) :=
  emit (EvStart sp) ;;
  modify (fun w => set_child_tx (S (w_child_tx w)) w) ;;
  match start_process sp with
  | Ok p => ret (Ok p)
  | Err e => modify (fun w => set_child_tx (pred (w_child_tx w)) w) ;; ret (Err e)
  end.

(** [process.stop_process().await]; the notifications sent by the child
    while it stops and the release of its sender are modelled from the
    spec (see [stop_notifies] and [stop_releases]). *)
Definition stop_op (p : MP) : M (Result unit StopProcessError) :=
  emit (EvStop p) ;;
  modify (fun w => set_pending (w_pending w + stop_notifies p) w) ;;
  modify (fun w => if stop_releases p then set_child_tx (pred (w_child_tx w)) w else w) ;;
  ret (stop_process p).

(** [Vec::pop]: the last element. *)
Definition vec_pop {A} (v : list A) : option (A * list A) :=
  match rev v with
  | [] => None
  | x :: r => Some (x, rev r)
  end.

(** [while let Some(process) = running.pop() { if let Err(err) =
    process.stop_process().await { tracing::error!(..) } }]; the loop runs
    at most [length running] times, which is the fuel it is given. *)
Fixpoint stop_all (fuel : nat) (running : list MP) : M unit :=
  match fuel with
  | 0 => ret tt
  | S f =>
      match vec_pop running with
      | None => ret tt
      | Some (process, rest) =>
          let* r := stop_op process in
          match r with
          | Err _ => ret tt    (* tracing::error!, the error is discarded *)
          | Ok _ => ret tt
          end ;;
          stop_all f rest
      end
  end.

(** [while shutdown_receiver.recv().await.is_some() {}]; every [Some]
    consumes one queued message, and at most [w_pending + length script + 1]
    messages can ever be queued from the current world on (see
    [drain_fuel_enough]), so this fuel is never exhausted. *)
Fixpoint drain_loop (fuel : nat) : M unit :=
  match fuel with
  | 0 => fun w => (Blocked, w)
  | S f =>
      let* r := recv in
      match r with
      | Some _ => drain_loop f
      | None => ret tt
      end
  end.

Definition drain_bound (w : world) : nat :=
  w_pending w + length (w_script w) + 2.

Definition drain : M unit := fun w => drain_loop (drain_bound w) w.

(** The startup loop [for sp in processes.into_iter() { .. }], with the
    rollback of its [Err] arm. *)
Fixpoint start_all (processes : list SP) (running : list MP)
  : M (Result (list MP) StartProcessError) :=
  match processes with
  | [] => ret (Ok running)
  | sp :: rest =>
      let* r := start_op sp in
      match r with
      | Ok process => start_all rest (running ++ [process])
      | Err err =>
          (* tracing::error!; stop the started processes *)
          stop_all (length running) running ;;
          (* drop(shutdown_sender) *)
          emit EvDropSender ;;
          modify (set_engine_tx false) ;;
          (* while shutdown_receiver.recv().await.is_some() {} *)
          drain ;;
          ret (Err err)
      end
  end.

Definition run_processes (processes : list SP) : M (Result unit StartProcessError) :=
  let* started := start_all processes [] in
  match started with
  | Err err => ret (Err err)
  | Ok running =>
      (* tokio::spawn of the bridge, owning external_shutdown_sender *)
      modify (set_bridge BridgeWaiting) ;;
      let* t := recv in
      match t with
      | None => panic   (* .expect("All shutdown senders closed ..") *)
      | Some _ =>
          stop_all (length running) running ;;
          ret (Ok tt)
      end
  end.

(** A fresh call: a new trigger channel with only [shutdown_sender], the
    external input open and empty, and the environment's script. *)
Definition init_world (script : list env_event) : world :=
  mkWorld [] true BridgeNotSpawned 0 0 0 false script.

Definition run_engine (processes : list SP) (script : list env_event)
  : outcome (Result unit StartProcessError) * world :=
  run_processes processes (init_world script).

End Engine.

End lib.

Import lib.

(** ** src/config.rs *)

Module config.

Inductive SignalConfig : Type := SIGINT | SIGQUIT | SIGTERM.

Record CommandConfig : Type := mkCommandConfig {
  user : option string;
  env_vars : gset string;
  program : string;
  args : list string
}.

Inductive StopMechanism : Type :=
| Signal (s : SignalConfig)
| Command (c : CommandConfig).

Definition StopMechanism_default : StopMechanism := Signal SIGTERM.

Record ProcessConfig : Type := mkProcessConfig {
  name : string;
  pre : option CommandConfig;
  run : option CommandConfig;
  stop : StopMechanism;
  post : option CommandConfig
}.

Record Config : Type := mkConfig { processes : list ProcessConfig }.

Inductive CommandLine : Type :=
| CommandString (line : string)
| CommandVector (v : list string).

Record DetailedCommandLine : Type := mkDetailedCommandLine {
  d_user : option string;
  d_env_vars : gset string;
  command : CommandLine
}.

Inductive CommandLineConfig : Type :=
| Simple (c : CommandLine)
| Detailed (c : DetailedCommandLine).

(** Rust's [str::split] with a [char] pattern: the pieces between the
    occurrences of [sep], empty pieces included; never empty. *)
Fixpoint str_split (sep : ascii) (s : string) : list string :=
  match s with
  | EmptyString => [EmptyString]
  | String a s' =>
      let parts := str_split sep s' in
      if Ascii.eqb a sep then EmptyString :: parts
      else match parts with
           | p :: ps => String a p :: ps
           | [] => [String a EmptyString]
           end
  end.

(** [CommandLine::program_and_args]; [None] is a panic: the [expect] on
    [elems.next()], or the out-of-bounds index [v[0]]. *)
Definition program_and_args (c : CommandLine) : option (string * list string) :=
  match c with
  | CommandString line =>
      match str_split " "%char line with
      | [] => None    (* .expect("Command line must not be empty") *)
      | program :: args => Some (program, args)
      end
  | CommandVector v =>
      match v with
      | [] => None    (* v[0] *)
      | program :: args => Some (program, args)
      end
  end.

(** [impl From<CommandLineConfig> for CommandConfig]. *)
Definition from_CommandLineConfig (c : CommandLineConfig) : option CommandConfig :=
  match c with
  | Simple config =>
      match program_and_args config with
      | None => None
      | Some (program, args) => Some (mkCommandConfig None ∅ program args)
      end
  | Detailed config =>
      match program_and_args (command config) with
      | None => None
      | Some (program, args) =>
          Some (mkCommandConfig (d_user config) (d_env_vars config) program args)
      end
  end.

End config.

(** ** The public entry point [run] *)

(** An [anyhow::Error] built by [with_context] around a
    [StartProcessError]: its top-level message is the context, the
    wrapped error is its source. *)
Record anyhow_Error : Type := mkAnyhowError {
  context_msg : string;
  source : StartProcessError
}.

(** [anyhow::Context::with_context] on a [Result]. *)
Definition with_context {T} (r : Result T StartProcessError) (msg : string)
  : Result T anyhow_Error :=
  match r with
  | Ok t => Ok t
  | Err e => Err (mkAnyhowError msg e)
  end.

Definition map_outcome {A B} (f : A -> B) (o : outcome A) : outcome B :=
  match o with
  | Done a => Done (f a)
  | Panicked => Panicked
  | Blocked => Blocked
  end.

Section Run.

Context {MP : Type}.
Variable start_process : config.ProcessConfig -> Result MP StartProcessError.
Variable stop_process : MP -> Result unit StopProcessError.
Variable stop_notifies : MP -> nat.
Variable stop_releases : MP -> bool.

(** [run(config, shutdown)]: [run_processes(config.processes, shutdown)
    .await.with_context(|| "Ground Control did not stop cleanly")]. *)
Definition run (cfg : config.Config) (script : list env_event)
  : outcome (Result unit anyhow_Error) :=
  map_outcome (fun r => with_context r "Ground Control did not stop cleanly")
    (fst (run_engine start_process stop_process stop_notifies stop_releases
            (config.processes cfg) script)).

End Run.

(** Whether an engine action is a receive on the trigger channel. *)
Definition is_recv {SP MP} (ev : @event SP MP) : bool :=
  match ev with EvRecv _ => true | _ => false end.

(** Environment events that only differ in sending a value or closing the
    external input. *)
Definition ext_event (e : env_event) : bool :=
  match e with ExtSend | ExtClose => true | _ => false end.

(** Whether the environment [s] delivers a child's notification while
    some child sender is still alive, starting with [n] live child senders
    (a release drops one, as [apply_env] does). *)
Fixpoint child_trigger (n : nat) (s : list env_event) : bool :=
  match s with
  | [] => false
  | ChildNotify :: s' => (0 <? n) || child_trigger n s'
  | ChildRelease :: s' => child_trigger (pred n) s'
  | _ :: s' => child_trigger n s'
  end.

Definition ev_equiv (e1 e2 : env_event) : Prop :=
  e1 = e2 \/ (ext_event e1 = true /\ ext_event e2 = true).

(** [shutdown.recv()] would return now. *)
Definition ext_ready {SP MP} (w : @world SP MP) : bool :=
  (0 <? w_ext_pending w) || w_ext_closed w.

(** Two worlds the engine cannot tell apart: equal except for the state
    of the external input, of which only its readiness matters until the
    bridge has fired, and scripts equal up to [ev_equiv]. *)
Definition core_equiv {SP MP} (w1 w2 : @world SP MP) : Prop :=
  w_trace w1 = w_trace w2 /\ w_engine_tx w1 = w_engine_tx w2 /\
  w_bridge w1 = w_bridge w2 /\ w_child_tx w1 = w_child_tx w2 /\
  w_pending w1 = w_pending w2 /\
  (w_bridge w1 = BridgeFinished \/ ext_ready w1 = ext_ready w2).

Definition world_equiv {SP MP} (w1 w2 : @world SP MP) : Prop :=
  core_equiv w1 w2 /\ Forall2 ev_equiv (w_script w1) (w_script w2).

(** A computation that maps indistinguishable worlds to equal outcomes and
    indistinguishable worlds. *)
Definition preserves_equiv {SP MP A} (m : @M SP MP A) : Prop :=
  forall w1 w2, world_equiv w1 w2 ->
    fst (m w1) = fst (m w2) /\ world_equiv (snd (m w1)) (snd (m w2)).

(** Messages that can still reach the trigger receiver without a stop:
    those queued, one per remaining environment event, and the bridge's. *)
Definition drain_measure {SP MP} (s : list env_event) (w : @world SP MP) : nat :=
  w_pending w + length s +
  match w_bridge w with BridgeWaiting => 1 | _ => 0 end.

(** Number of occurrences of the character [c] in [s]. *)
Fixpoint count_char (c : ascii) (s : string) : nat :=
  match s with
  | EmptyString => 0
  | String a s' => (if Ascii.eqb a c then 1 else 0) + count_char c s'
  end.

(** * A concrete instance

    Process specs and handles are numbers; spec [2] fails to start, spec
    [n] otherwise gives handle [10 + n]; stopping handle [10] fails; every
    stopped handle sends one notification and drops its sender clone. *)
Definition ex_start (n : nat) : Result nat StartProcessError :=
  if Nat.eqb n 2 then Err PreRunFailed else Ok (10 + n).

Definition ex_stop (p : nat) : Result unit StopProcessError :=
  if Nat.eqb p 10 then Err StopFailed else Ok tt.

Definition ex_notifies (p : nat) : nat := 1.

Definition ex_releases (p : nat) : bool := true.

(** * Proofs *)

Section EngineFacts.

Context {SP MP : Type}.
Variable start_process : SP -> Result MP StartProcessError.
Variable stop_process : MP -> Result unit StopProcessError.
Variable stop_notifies : MP -> nat.
Variable stop_releases : MP -> bool.

Local Abbreviation world := (@world SP MP).
Local Abbreviation M := (@M SP MP).
Local Abbreviation preserves_equiv := (@preserves_equiv SP MP _).
Local Abbreviation event := (@event SP MP).
Local Abbreviation recv_wait := (@recv_wait SP MP).
Local Abbreviation recv := (@recv SP MP).
Local Abbreviation start_op := (start_op start_process).
Local Abbreviation stop_op := (stop_op stop_process stop_notifies stop_releases).
Local Abbreviation stop_all := (stop_all stop_process stop_notifies stop_releases).
Local Abbreviation start_all := (start_all start_process stop_process stop_notifies stop_releases).
Local Abbreviation run_processes :=
  (run_processes start_process stop_process stop_notifies stop_releases).
Local Abbreviation run_engine :=
  (run_engine start_process stop_process stop_notifies stop_releases).

Ltac unfold_monad := unfold bind, ret, modify, emit, panic in *.
Ltac unfold_setters :=
  unfold set_trace, set_engine_tx, set_bridge, set_child_tx, set_pending,
    set_ext, set_script in *.

(** ** Receiving on the trigger channel *)

Lemma apply_env_trace (e : env_event) (w : world) :
  w_trace (apply_env e w) = w_trace w.
Proof. destruct e; simpl; repeat case_match; reflexivity. Qed.

Lemma apply_env_engine_tx (e : env_event) (w : world) :
  w_engine_tx (apply_env e w) = w_engine_tx w.
Proof. destruct e; simpl; repeat case_match; reflexivity. Qed.

Lemma apply_env_bridge (e : env_event) (w : world) :
  w_bridge (apply_env e w) = w_bridge w.
Proof. destruct e; simpl; repeat case_match; reflexivity. Qed.

Lemma recv_wait_frame (s : list env_event) (w : world) :
  let (o, w') := recv_wait s w in
  w_trace w' = w_trace w /\ w_engine_tx w' = w_engine_tx w /\
  o <> Panicked /\ (w_engine_tx w = true -> o <> Done None) /\
  (w_bridge w = BridgeNotSpawned -> w_bridge w' = BridgeNotSpawned).
Proof.
  revert w; induction s as [|e s IH]; intros w; simpl;
    destruct (w_pending w) as [|n] eqn:Hp;
    try (repeat split; simpl; congruence).
  - destruct (senders w =? 0) eqn:Hs.
    + repeat split; simpl; try congruence.
      intros He. unfold senders in Hs. rewrite He in Hs. discriminate.
    + destruct (bridge_ready w) eqn:Hb.
      * unfold bridge_run. destruct (w_ext_pending w);
          repeat split; simpl; try congruence.
        intros Hn. unfold bridge_ready in Hb. rewrite Hn in Hb. discriminate.
        intros Hn. unfold bridge_ready in Hb. rewrite Hn in Hb. discriminate.
      * repeat split; simpl; congruence.
  - destruct (senders w =? 0) eqn:Hs.
    + repeat split; simpl; try congruence.
      intros He. unfold senders in Hs. rewrite He in Hs. discriminate.
    + destruct (bridge_ready w) eqn:Hb.
      * unfold bridge_run. destruct (w_ext_pending w);
          repeat split; simpl; try congruence.
        intros Hn. unfold bridge_ready in Hb. rewrite Hn in Hb. discriminate.
        intros Hn. unfold bridge_ready in Hb. rewrite Hn in Hb. discriminate.
      * specialize (IH (apply_env e w)).
        destruct (recv_wait s (apply_env e w)) as [o w'].
        rewrite apply_env_trace, apply_env_engine_tx, apply_env_bridge in IH.
        exact IH.
Qed.

(** ** The teardown loop *)

Lemma vec_pop_snoc {A} (r : list A) (x : A) : vec_pop (r ++ [x]) = Some (x, r).
Proof. unfold vec_pop. rewrite rev_app_distr. simpl. rewrite rev_involutive. reflexivity. Qed.

Lemma stop_all_unfold (r : list MP) (x : MP) (w : world) :
  stop_all (length (r ++ [x])) (r ++ [x]) w =
  stop_all (length r) r
    (let w1 := set_trace (w_trace w ++ [EvStop x]) w in
     let w2 := set_pending (w_pending w1 + stop_notifies x) w1 in
     if stop_releases x then set_child_tx (pred (w_child_tx w2)) w2 else w2).
Proof.
  rewrite length_app, Nat.add_comm. simpl. rewrite vec_pop_snoc.
  unfold stop_op; unfold_monad. destruct (stop_process x); reflexivity.
Qed.

Lemma stop_all_spec (running : list MP) (w : world) :
  exists w', stop_all (length running) running w = (Done tt, w') /\
    w_trace w' = w_trace w ++ map EvStop (rev running) /\
    w_engine_tx w' = w_engine_tx w /\ w_bridge w' = w_bridge w /\
    w_script w' = w_script w /\ w_ext_pending w' = w_ext_pending w /\
    w_ext_closed w' = w_ext_closed w /\
    w_child_tx w' <= w_child_tx w /\
    ((forall p, stop_releases p = true) ->
     w_child_tx w' = w_child_tx w - length running).
Proof.
  revert w; induction running as [|x r IH] using rev_ind; intros w.
  - exists w. simpl. rewrite app_nil_r. repeat split; try lia.
  - rewrite stop_all_unfold.
    match goal with |- context [stop_all _ _ ?w1] => destruct (IH w1) as (w' & Hrun & Ht & He & Hb & Hs & Hx & Hc & Hn & Hrel) end.
    exists w'. rewrite Hrun. rewrite rev_app_distr. simpl.
    destruct (stop_releases x) eqn:Hx'; simpl in *;
      rewrite Ht, <- ?app_assoc; repeat split; try assumption; try lia.
    + intros Hall. rewrite (Hrel Hall), length_app. simpl. lia.
    + intros Hall. rewrite Hall in Hx'. discriminate.
Qed.

(** ** One receive *)

Lemma recv_cases (w : world) :
  let (o, w') := recv w in
  ((exists r, o = Done r /\ w_trace w' = w_trace w ++ [EvRecv r]) \/
   (o = Blocked /\ w_trace w' = w_trace w)) /\
  w_engine_tx w' = w_engine_tx w /\
  (w_engine_tx w = true -> o <> Done None) /\
  (w_bridge w = BridgeNotSpawned -> w_bridge w' = BridgeNotSpawned).
Proof.
  unfold recv. pose proof (recv_wait_frame (w_script w) w) as Hf.
  destruct (recv_wait (w_script w) w) as [[r| |] w'];
    destruct Hf as (Ht & He & Hp & Hn & Hb); simpl.
  - split; [left; exists r; rewrite Ht; auto|].
    split; [exact He|]. split; [|exact Hb].
    intros H1 H2. injection H2 as ->. apply (Hn H1). reflexivity.
  - exfalso. apply Hp. reflexivity.
  - split; [right; auto|]. split; [exact He|]. split; [|exact Hb].
    intros _ H. discriminate.
Qed.

(** ** The rollback drain *)

Lemma drain_loop_cases (f : nat) (w : world) :
  let (o, w') := drain_loop f w in
  (o = Done tt \/ o = Blocked) /\
  exists rest, w_trace w' = w_trace w ++ rest /\
    Forall (fun ev => exists r, ev = EvRecv r) rest.
Proof.
  revert w; induction f as [|f IH]; intros w; simpl.
  - split; [right; reflexivity|]. exists []. rewrite app_nil_r. auto.
  - unfold_monad. pose proof (recv_cases w) as Hr.
    destruct (recv w) as [[r| |] w'] eqn:Hrecv; destruct Hr as (Hc & _).
    + destruct Hc as [(r' & Hr' & Ht)|(Hb & _)]; [|discriminate].
      injection Hr' as <-. destruct r as [[]|].
      * specialize (IH w'). destruct (drain_loop f w') as [o w''].
        destruct IH as (Ho & rest & Ht' & Hall). split; auto.
        exists (EvRecv (Some tt) :: rest). rewrite Ht', Ht, <- app_assoc. split; auto.
        constructor; eauto.
      * split; auto. exists [EvRecv None]. split; auto. repeat constructor; eauto.
    + destruct Hc as [(r' & Hr' & _)|(Hb & _)]; discriminate.
    + destruct Hc as [(r' & Hr' & _)|(_ & Ht)]; [discriminate|].
      split; auto. exists []. rewrite Ht, app_nil_r. auto.
Qed.

(** ** The startup loop *)

Lemma start_all_ok (specs : list SP) (hs running : list MP) (w : world) :
  Forall2 (fun sp p => start_process sp = Ok p) specs hs ->
  start_all specs running w =
  (Done (Ok (running ++ hs)),
   set_child_tx (w_child_tx w + length specs)
     (set_trace (w_trace w ++ map EvStart specs) w)).
Proof.
  intros Hok. revert running w.
  induction Hok as [|sp p specs hs Hsp Hok IH]; intros running w; simpl.
  - rewrite !app_nil_r, Nat.add_0_r. destruct w; reflexivity.
  - unfold start_op; unfold_monad. rewrite Hsp. simpl. rewrite IH.
    destruct w; unfold_setters; simpl. rewrite <- !app_assoc. simpl.
    f_equal. f_equal. lia.
Qed.

Lemma start_all_err (pre post : list SP) (sp : SP) (hs running : list MP)
    (e : StartProcessError) (w : world) :
  Forall2 (fun sp p => start_process sp = Ok p) pre hs ->
  start_process sp = Err e ->
  start_all (pre ++ sp :: post) running w =
  bind (stop_all (length (running ++ hs)) (running ++ hs))
    (fun _ => bind (emit EvDropSender)
      (fun _ => bind (modify (set_engine_tx false))
        (fun _ => bind drain (fun _ => ret (Err e)))))
    (set_child_tx (w_child_tx w + length pre)
       (set_trace (w_trace w ++ map EvStart (pre ++ [sp])) w)).
Proof.
  intros Hok Herr. revert running w.
  induction Hok as [|sp' p pre hs Hsp Hok IH]; intros running w; simpl.
  - unfold start_op; unfold_monad. rewrite Herr. simpl. rewrite app_nil_r.
    destruct w; simpl. rewrite Nat.add_0_r. reflexivity.
  - unfold start_op at 1; unfold_monad. rewrite Hsp. simpl. rewrite IH.
    rewrite <- app_assoc. destruct w; simpl.
    lazymatch goal with
    | |- ?L = ?R =>
        lazymatch L with context [stop_all _ _ ?w1] =>
        lazymatch R with context [stop_all _ _ ?w2] =>
          replace w1 with w2; [reflexivity|]
        end end
    end.
    unfold_setters; simpl. rewrite <- app_assoc. simpl. f_equal. lia.
Qed.

(** ** The whole engine *)

Lemma run_processes_all_started (specs : list SP) (hs : list MP) (w : world) :
  Forall2 (fun sp p => start_process sp = Ok p) specs hs ->
  run_processes specs w =
  (let w1 := set_bridge BridgeWaiting
               (set_child_tx (w_child_tx w + length specs)
                  (set_trace (w_trace w ++ map EvStart specs) w)) in
   match recv w1 with
   | (Done None, w2) => (Panicked, w2)
   | (Done (Some _), w2) => bind (stop_all (length hs) hs) (fun _ => ret (Ok tt)) w2
   | (Panicked, w2) => (Panicked, w2)
   | (Blocked, w2) => (Blocked, w2)
   end).
Proof.
  intros Hok. unfold run_processes. unfold bind at 1.
  rewrite (start_all_ok specs hs [] w Hok). simpl.
  unfold bind, modify, panic.
  destruct (recv _) as [[[[]|]| |] w2]; reflexivity.
Qed.

Lemma recv_some_of_pending (s : list env_event) (w : world) (n : nat) :
  w_pending w = S n -> fst (recv_wait s w) = Done (Some tt).
Proof. intros Hp. destruct s; simpl; rewrite Hp; reflexivity. Qed.

(** A receive whose first environment event is a trigger returns it. *)
Lemma recv_first_trigger (w : world) (e : env_event) (s : list env_event) :
  w_pending w = 0 -> w_engine_tx w = true -> w_bridge w = BridgeWaiting ->
  w_ext_pending w = 0 -> w_ext_closed w = false -> w_script w = e :: s ->
  (e = ExtSend \/ e = ExtClose \/ (e = ChildNotify /\ 0 < w_child_tx w)) ->
  exists w', recv w = (Done (Some tt), w') /\
             w_trace w' = w_trace w ++ [EvRecv (Some tt)].
Proof.
  intros Hp He Hb Hxp Hxc Hs Htr. unfold recv. rewrite Hs.
  pose proof (recv_wait_frame (e :: s) w) as Hf.
  assert (Hr : fst (recv_wait (e :: s) w) = Done (Some tt)).
  { simpl. rewrite Hp.
    assert (Hsn : (senders w =? 0) = false).
    { unfold senders. rewrite He. reflexivity. }
    rewrite Hsn. unfold bridge_ready. rewrite Hb, Hxp, Hxc. simpl.
    destruct Htr as [->|[->|[-> Hc]]].
    - simpl. rewrite Hxc. destruct s; simpl; rewrite Hp;
        unfold senders, bridge_ready; simpl; rewrite ?He, ?Hb, ?Hxp; reflexivity.
    - simpl. destruct s; simpl; rewrite Hp;
        unfold senders, bridge_ready; simpl; rewrite ?He, ?Hb, ?Hxp; reflexivity.
    - simpl. destruct (w_child_tx w) as [|k]; [lia|].
      apply recv_some_of_pending with (n := w_pending w).
      reflexivity. }
  destruct (recv_wait (e :: s) w) as [o w'] eqn:Hrw.
  simpl in Hr. subst o. destruct Hf as (Ht & _).
  eexists. split; [reflexivity|]. simpl. rewrite Ht. reflexivity.
Qed.

(** Outcomes of the startup loop. *)
Lemma start_all_cases (specs : list SP) (running : list MP) (w : world) :
  let (o, w') := start_all specs running w in
  o <> Panicked /\
  (forall l, o = Done (Ok l) ->
     Forall (fun sp => is_ok (start_process sp) = true) specs /\
     w_engine_tx w' = w_engine_tx w /\ w_bridge w' = w_bridge w) /\
  (forall e, o = Done (Err e) ->
     ~ Forall (fun sp => is_ok (start_process sp) = true) specs).
Proof.
  revert running w; induction specs as [|sp specs IH]; intros running w; simpl.
  - split; [discriminate|]. split.
    + intros l _. auto.
    + intros e H. discriminate.
  - unfold start_op; unfold_monad. simpl.
    destruct (start_process sp) as [p|e] eqn:Hsp; simpl.
    + specialize (IH (running ++ [p])
        (set_child_tx (S (w_child_tx w)) (set_trace (w_trace w ++ [EvStart sp]) w))).
      destruct (start_all specs _ _) as [o w'].
      destruct IH as (Hp & Hok & Herr). split; [exact Hp|]. split.
      * intros l Hl. destruct (Hok l Hl) as (Hall & He & Hb).
        split; [constructor; [rewrite Hsp; reflexivity|exact Hall]|].
        rewrite He, Hb. split; reflexivity.
      * intros e He Hall. inversion Hall as [|? ? _ Hrest].
        exact (Herr e He Hrest).
    + match goal with |- context [stop_all ?n ?l ?w1] =>
        destruct (stop_all_spec l w1) as (w2 & Hst & _) end.
      rewrite Hst.
      match goal with |- context [drain ?w3] =>
        pose proof (drain_loop_cases (drain_bound w3) w3) as Hd;
        unfold drain; destruct (drain_loop (drain_bound w3) w3) as [o w4] end.
      destruct Hd as ([-> | ->] & _); simpl.
      * split; [discriminate|]. split; [intros l H; discriminate|].
        intros e' _ Hall. inversion Hall as [|? ? Hh _].
        rewrite Hsp in Hh. discriminate.
      * split; [discriminate|]. split; [intros l H; discriminate|].
        intros e' H. discriminate.
Qed.

(** Every start succeeds: the engine waits for a trigger, then tears
    down. *)
Lemma all_started_cases (specs : list SP) (hs : list MP) (script : list env_event) :
  Forall2 (fun sp p => start_process sp = Ok p) specs hs ->
  let (o, w) := run_engine specs script in
  (o = Blocked /\ w_trace w = map EvStart specs) \/
  (o = Done (Ok tt) /\
   w_trace w = map EvStart specs ++ EvRecv (Some tt) :: map EvStop (rev hs)).
Proof.
  intros Hok. unfold run_engine. rewrite (run_processes_all_started specs hs _ Hok).
  cbv zeta.
  match goal with |- context [recv ?w1] =>
    pose proof (recv_cases w1) as Hr; destruct (recv w1) as [o w2] end.
  destruct Hr as ([(r & -> & Ht)|(-> & Ht)] & _ & Hnone & _).
  - destruct r as [[]|].
    + destruct (stop_all_spec hs w2) as (w3 & Hst & Ht3 & _).
      unfold bind; rewrite Hst. simpl. right. split; [reflexivity|].
      rewrite Ht3, Ht. simpl. rewrite <- app_assoc. reflexivity.
    + exfalso. apply Hnone; reflexivity.
  - left. split; [reflexivity|]. rewrite Ht. reflexivity.
Qed.

(** While the engine, and the bridge still waiting, hold their senders,
    the receive returns a message as soon as one is queued, the external
    input is ready, or a child notifies with its sender alive. *)
Lemma recv_wait_trigger (s : list env_event) (w : world) :
  w_engine_tx w = true -> w_bridge w = BridgeWaiting ->
  (0 < w_pending w \/ bridge_ready w = true \/ existsb ext_event s = true \/
   child_trigger (w_child_tx w) s = true) ->
  fst (recv_wait s w) = Done (Some tt).
Proof.
  revert w; induction s as [|e s IH]; intros w He Hb Ht.
  all: destruct (w_pending w) as [|n] eqn:Hp; [|exact (recv_some_of_pending _ w n Hp)].
  all: assert (Hs : (senders w =? 0) = false)
         by (unfold senders; rewrite He; reflexivity).
  all: simpl; rewrite Hp, Hs; destruct (bridge_ready w) eqn:Hr; [reflexivity|].
  - simpl in Ht. destruct Ht as [Ht|[Ht|[Ht|Ht]]]; [lia|congruence|discriminate|discriminate].
  - unfold bridge_ready in Hr. rewrite Hb in Hr.
    apply orb_false_iff in Hr as [Hr1 Hr2].
    apply IH; rewrite ?apply_env_engine_tx, ?apply_env_bridge; auto.
    destruct Ht as [Ht|[Ht|Ht]]; [lia|discriminate|].
    destruct e; simpl in Ht |- *.
    + rewrite Hr2. right; left. unfold bridge_ready. simpl. rewrite Hb. reflexivity.
    + right; left. unfold bridge_ready. simpl. rewrite Hb, orb_true_r. reflexivity.
    + destruct (w_child_tx w) as [|c] eqn:Hc.
      * right. right. rewrite Hc. exact Ht.
      * left. simpl. lia.
    + right. right. exact Ht.
Qed.

Lemma run_engine_fires (specs : list SP) (hs : list MP) (script : list env_event) :
  Forall2 (fun sp p => start_process sp = Ok p) specs hs ->
  (existsb ext_event script = true \/ child_trigger (length hs) script = true) ->
  fst (run_engine specs script) = Done (Ok tt).
Proof.
  intros Hok Ht. unfold run_engine, lib.run_engine.
  rewrite (run_processes_all_started specs hs _ Hok). cbv zeta. unfold recv. simpl.
  match goal with |- context [recv_wait script ?w] => set (w1 := w) end.
  assert (Hn : fst (recv_wait script w1) = Done (Some tt)).
  { apply recv_wait_trigger; [reflexivity|reflexivity|].
    right; right. subst w1. simpl. rewrite (Forall2_length _ _ _ Hok). exact Ht. }
  destruct (recv_wait script w1) as [o w'] eqn:Hr. simpl in Hn. subst o. simpl.
  destruct (stop_all_spec hs (set_trace (w_trace w' ++ [EvRecv (Some tt)]) w'))
    as (w2 & Hst & _). unfold bind. rewrite Hst. reflexivity.
Qed.

(** C1: for a spec list whose starts all succeed, once a trigger arrives
    (a value or the closure of the external input, or a notification from
    a child whose sender is still alive) the engine reads it, calls
    [stop_process] exactly once per started handle, in the strict reverse
    of the start order, and returns [Ok(())]. *)
Theorem teardown_reverse_of_startup (specs : list SP) (hs : list MP)
    (script : list env_event) :
  Forall2 (fun sp p => start_process sp = Ok p) specs hs ->
  (existsb ext_event script = true \/ child_trigger (length hs) script = true) ->
  let (o, w) := run_engine specs script in
  o = Done (Ok tt) /\
  w_trace w = map EvStart specs ++ EvRecv (Some tt) :: map EvStop (rev hs).
Proof.
  intros Hok Ht. pose proof (all_started_cases specs hs script Hok) as Hc.
  pose proof (run_engine_fires specs hs script Hok Ht) as Hf.
  destruct (run_engine specs script) as [o w]. simpl in Hf. subst o.
  destruct Hc as [[Hb _]|Hc]; [discriminate|exact Hc].
Qed.

(** C5: once every start has succeeded, a first trigger (a value or the
    closure of the external input, or a child's notification) is read with
    exactly one receive; whatever the environment does afterwards (the
    rest of the script, or notifications sent while handles are stopped)
    is never consumed: teardown runs once and the result is [Ok(())]. *)
Theorem first_trigger_wins (specs : list SP) (hs : list MP)
    (e : env_event) (rest : list env_event) :
  Forall2 (fun sp p => start_process sp = Ok p) specs hs ->
  (e = ExtSend \/ e = ExtClose \/ (e = ChildNotify /\ hs <> [])) ->
  let (o, w) := run_engine specs (e :: rest) in
  o = Done (Ok tt) /\
  w_trace w = map EvStart specs ++ EvRecv (Some tt) :: map EvStop (rev hs) /\
  length (filter is_recv (w_trace w)) = 1.
Proof.
  intros Hok Htr. unfold run_engine. rewrite (run_processes_all_started specs hs _ Hok).
  cbv zeta.
  match goal with |- context [recv ?w1] =>
    assert (Hw : exists w2, recv w1 = (Done (Some tt), w2) /\
                            w_trace w2 = w_trace w1 ++ [EvRecv (Some tt)]);
    [apply (recv_first_trigger w1 e rest); simpl; try reflexivity|] end.
  - destruct Htr as [->|[->|[-> Hne]]]; auto. right; right. split; [reflexivity|].
    rewrite (Forall2_length _ _ _ Hok). destruct hs; simpl; [congruence|lia].
  - destruct Hw as (w2 & Hr & Ht). rewrite Hr.
    destruct (stop_all_spec hs w2) as (w3 & Hst & Ht3 & _).
    unfold bind; rewrite Hst. simpl. rewrite Ht3, Ht. simpl.
    rewrite <- app_assoc. split; [reflexivity|]. split; [reflexivity|].
    rewrite !filter_app. simpl.
    assert (Hs : forall (l : list SP), filter is_recv (map (@EvStart SP MP) l) = []).
    { induction l; simpl; auto. }
    assert (Hp : forall (l : list MP), filter is_recv (map (@EvStop SP MP) l) = []).
    { induction l; simpl; auto. }
    rewrite Hs, Hp. reflexivity.
Qed.

(** Outcomes of the whole engine. *)
Lemma run_engine_cases (specs : list SP) (script : list env_event) :
  let (o, w) := run_engine specs script in
  o <> Panicked /\
  (o = Done (Ok tt) -> Forall (fun sp => is_ok (start_process sp) = true) specs) /\
  (forall e, o = Done (Err e) ->
     ~ Forall (fun sp => is_ok (start_process sp) = true) specs).
Proof.
  unfold run_engine, run_processes. unfold bind at 1.
  pose proof (start_all_cases specs [] (init_world script)) as Hs.
  destruct (start_all specs [] (init_world script)) as [o w1].
  destruct Hs as (Hnp & Hok & Herr).
  destruct o as [[l|e]| |]; simpl.
  - destruct (Hok l eq_refl) as (Hall & He & _).
    unfold bind, modify. simpl.
    pose proof (recv_cases (set_bridge BridgeWaiting w1)) as Hr.
    destruct (recv (set_bridge BridgeWaiting w1)) as [o2 w2].
    destruct Hr as ([(r & -> & _)|(-> & _)] & _ & Hnone & _).
    + destruct r as [[]|].
      * destruct (stop_all_spec l w2) as (w3 & Hst & _). rewrite Hst. simpl.
        split; [discriminate|]. split; [auto|]. intros e' H; discriminate.
      * exfalso. apply Hnone; [exact He|reflexivity].
    + split; [discriminate|]. split; [discriminate|]. intros e' H; discriminate.
  - unfold ret. split; [discriminate|]. split; [discriminate|].
    intros e' H. injection H as <-. exact (Herr e eq_refl).
  - exfalso. apply Hnp. reflexivity.
  - split; [discriminate|]. split; [discriminate|]. intros e' H; discriminate.
Qed.

(** C6: the [expect] on the steady-state receive never fires: the engine
    keeps [shutdown_sender] alive until it returns, so that receive never
    sees a closed, empty channel, whatever the spec list (also empty) and
    whatever the environment does. *)
Theorem steady_state_receive_never_panics (specs : list SP) (script : list env_event) :
  fst (run_engine specs script) <> Panicked.
Proof.
  pose proof (run_engine_cases specs script) as H.
  destruct (run_engine specs script) as [o w]. simpl. apply H.
Qed.

(** Results of [stop_process] are discarded. *)
Lemma stop_all_ignores_stop_results
    (stop_process' : MP -> Result unit StopProcessError) (f : nat) (l : list MP) (w : world) :
  lib.stop_all stop_process' stop_notifies stop_releases f l w = stop_all f l w.
Proof.
  revert l w; induction f as [|f IH]; intros l w; simpl; [reflexivity|].
  destruct (vec_pop l) as [[p r]|]; [|reflexivity].
  unfold stop_op; unfold_monad; simpl.
  destruct (stop_process' p), (stop_process p); simpl; apply IH.
Qed.

Lemma start_all_ignores_stop_results
    (stop_process' : MP -> Result unit StopProcessError)
    (specs : list SP) (running : list MP) (w : world) :
  lib.start_all start_process stop_process' stop_notifies stop_releases specs running w =
  start_all specs running w.
Proof.
  revert running w; induction specs as [|sp specs IH]; intros running w; simpl; [reflexivity|].
  unfold start_op; unfold_monad; simpl.
  destruct (start_process sp); simpl.
  - apply IH.
  - rewrite stop_all_ignores_stop_results. reflexivity.
Qed.

Lemma run_engine_ignores_stop_results
    (stop_process' : MP -> Result unit StopProcessError)
    (specs : list SP) (script : list env_event) :
  lib.run_engine start_process stop_process' stop_notifies stop_releases specs script =
  run_engine specs script.
Proof.
  unfold lib.run_engine, lib.run_processes, bind, modify, ret, panic.
  rewrite start_all_ignores_stop_results.
  destruct (start_all specs [] (init_world script)) as [[[l|e]| |] w1]; try reflexivity.
  destruct (recv _) as [[[[]|]| |] w2]; try reflexivity.
  rewrite stop_all_ignores_stop_results. reflexivity.
Qed.

(** C3: a run that returns gives [Ok(())] exactly when every start
    succeeds (and then all were attempted), and the results of
    [stop_process] never change what the engine does or returns. *)
Theorem success_iff_all_starts_succeed (specs : list SP) (script : list env_event) :
  (forall r, fst (run_engine specs script) = Done r ->
     (is_ok r = true <-> Forall (fun sp => is_ok (start_process sp) = true) specs)) /\
  (forall stop_process' : MP -> Result unit StopProcessError,
     lib.run_engine start_process stop_process' stop_notifies stop_releases
       specs script = run_engine specs script).
Proof.
  split.
  - intros r. pose proof (run_engine_cases specs script) as H.
    destruct (run_engine specs script) as [o w]. simpl. intros ->.
    destruct H as (_ & Hok & Herr). destruct r as [[]|e]; simpl.
    + split; [intros _; auto|reflexivity].
    + split; [discriminate|]. intros Hall. exfalso. exact (Herr e eq_refl Hall).
  - intros stop_process'. apply run_engine_ignores_stop_results.
Qed.

(** With no sender left, the drain returns every queued message and then
    sees the closure. *)
Lemma drain_loop_closed (f : nat) (w : world) :
  senders w = 0 -> w_pending w < f ->
  exists w', drain_loop f w = (Done tt, w') /\
    w_trace w' = w_trace w ++ repeat (EvRecv (Some tt)) (w_pending w) ++ [EvRecv None] /\
    w_engine_tx w' = w_engine_tx w.
Proof.
  revert w; induction f as [|f IH]; intros w Hs Hp; [lia|].
  simpl. unfold bind, recv.
  destruct (w_pending w) as [|n] eqn:Hpend.
  - assert (Hr : recv_wait (w_script w) w = (Done None, set_script (w_script w) w)).
    { destruct (w_script w); simpl; rewrite Hpend, Hs; reflexivity. }
    rewrite Hr. simpl. eexists. split; [reflexivity|]. split; reflexivity.
  - assert (Hr : recv_wait (w_script w) w =
                 (Done (Some tt), set_script (w_script w) (set_pending n w))).
    { destruct (w_script w); simpl; rewrite Hpend; reflexivity. }
    rewrite Hr. simpl.
    set (w1 := set_trace _ _).
    destruct (IH w1) as (w' & Hd & Ht & He).
    + unfold w1, senders in *. simpl. exact Hs.
    + unfold w1. simpl. lia.
    + exists w'. rewrite Hd. split; [reflexivity|]. split.
      * rewrite Ht. unfold w1. simpl. rewrite <- app_assoc. reflexivity.
      * rewrite He. reflexivity.
Qed.

(** The rollback path of the whole engine. *)
Lemma run_engine_rollback (pre post : list SP) (sp : SP) (hs : list MP)
    (e : StartProcessError) (script : list env_event) :
  Forall2 (fun sp p => start_process sp = Ok p) pre hs ->
  start_process sp = Err e ->
  exists w2,
    run_engine (pre ++ sp :: post) script =
      (let (o, w) := drain w2 in
       match o with
       | Done _ => (Done (Err e), w)
       | Panicked => (Panicked, w)
       | Blocked => (Blocked, w)
       end) /\
    w_trace w2 = map EvStart (pre ++ [sp]) ++ map EvStop (rev hs) ++ [EvDropSender] /\
    w_engine_tx w2 = false /\ w_bridge w2 = BridgeNotSpawned /\
    ((forall p, stop_releases p = true) -> w_child_tx w2 = 0).
Proof.
  intros Hok Herr. unfold run_engine, run_processes. unfold bind at 1.
  rewrite (start_all_err pre post sp hs [] e _ Hok Herr). simpl.
  unfold bind, emit, modify, ret.
  match goal with |- context [stop_all _ _ ?w1] =>
    destruct (stop_all_spec hs w1) as (w2 & Hst & Ht & He & Hb & _ & _ & _ & _ & Hrel) end.
  rewrite Hst.
  exists (set_engine_tx false (set_trace (w_trace w2 ++ [EvDropSender]) w2)). split.
  - destruct (drain _) as [o w]; destruct o; reflexivity.
  - simpl. rewrite Ht. simpl. split; [rewrite <- app_assoc; reflexivity|].
    split; [reflexivity|]. split; [exact Hb|].
    intros Hall. rewrite (Hrel Hall). simpl.
    rewrite (Forall2_length _ _ _ Hok). lia.
Qed.

(** C2: when the start of spec [k] fails, [start_process] has been called
    exactly for specs [0..k], [stop_process] exactly for the handles of
    specs [0..k-1] in reverse order, and afterwards only the sender is
    dropped and the channel drained; whatever [stop_process] returns, a
    returning run returns the start error unchanged. *)
Theorem rollback_after_failed_start (pre post : list SP) (sp : SP) (hs : list MP)
    (e : StartProcessError) (script : list env_event) :
  Forall2 (fun sp p => start_process sp = Ok p) pre hs ->
  start_process sp = Err e ->
  let (o, w) := run_engine (pre ++ sp :: post) script in
  (o = Done (Err e) \/ o = Blocked) /\
  exists rest,
    w_trace w = map EvStart (pre ++ [sp]) ++ map EvStop (rev hs) ++ EvDropSender :: rest /\
    Forall (fun ev => exists r, ev = EvRecv r) rest.
Proof.
  intros Hok Herr.
  destruct (run_engine_rollback pre post sp hs e script Hok Herr) as (w2 & Hrun & Ht & _).
  rewrite Hrun. unfold drain.
  pose proof (drain_loop_cases (drain_bound w2) w2) as Hd.
  destruct (drain_loop (drain_bound w2) w2) as [o w3].
  destruct Hd as ([-> | ->] & rest & Ht3 & Hall); simpl;
    (split; [auto|]); exists rest; rewrite Ht3, Ht, <- !app_assoc; split; auto.
Qed.

(** C7: in the rollback the engine drops [shutdown_sender] before the
    drain; when stopping a handle drops the sender clone it holds, the
    drain ends on the closure of the channel, and only then is the start
    error returned. *)
Theorem rollback_drain_terminates (pre post : list SP) (sp : SP) (hs : list MP)
    (e : StartProcessError) (script : list env_event) :
  Forall2 (fun sp p => start_process sp = Ok p) pre hs ->
  start_process sp = Err e ->
  (forall p, stop_releases p = true) ->
  exists w n,
    run_engine (pre ++ sp :: post) script = (Done (Err e), w) /\
    w_trace w = map EvStart (pre ++ [sp]) ++ map EvStop (rev hs) ++
                EvDropSender :: repeat (EvRecv (Some tt)) n ++ [EvRecv None].
Proof.
  intros Hok Herr Hall.
  destruct (run_engine_rollback pre post sp hs e script Hok Herr)
    as (w2 & Hrun & Ht & He & Hb & Hc).
  destruct (drain_loop_closed (drain_bound w2) w2) as (w3 & Hd & Ht3 & _).
  - unfold senders. rewrite He, Hb, (Hc Hall). reflexivity.
  - unfold drain_bound. lia.
  - exists w3, (w_pending w2). rewrite Hrun. unfold drain. rewrite Hd.
    split; [reflexivity|]. rewrite Ht3, Ht, <- !app_assoc. reflexivity.
Qed.

(** ** Sending a value and closing the external input are alike *)

Lemma apply_env_ext_event (e : env_event) (w : world) :
  ext_event e = true ->
  w_trace (apply_env e w) = w_trace w /\ w_engine_tx (apply_env e w) = w_engine_tx w /\
  w_bridge (apply_env e w) = w_bridge w /\ w_child_tx (apply_env e w) = w_child_tx w /\
  w_pending (apply_env e w) = w_pending w /\ ext_ready (apply_env e w) = true.
Proof.
  intros H. unfold ext_ready.
  destruct e; try discriminate; simpl.
  - destruct (w_ext_closed w) eqn:C; simpl; rewrite ?C, ?orb_true_r; repeat split; auto.
  - rewrite orb_true_r. repeat split; auto.
Qed.

Lemma apply_env_equiv (e1 e2 : env_event) (w1 w2 : world) :
  ev_equiv e1 e2 -> core_equiv w1 w2 -> core_equiv (apply_env e1 w1) (apply_env e2 w2).
Proof.
  intros He12 Hw.
  destruct (ext_event e1) eqn:X1; [destruct (ext_event e2) eqn:X2|].
  - destruct (apply_env_ext_event e1 w1 X1) as (T1 & E1 & B1 & C1 & P1 & R1).
    destruct (apply_env_ext_event e2 w2 X2) as (T2 & E2 & B2 & C2 & P2 & R2).
    destruct Hw as (Ht & He & Hb & Hc & Hp & _).
    unfold core_equiv. rewrite T1, T2, E1, E2, B1, B2, C1, C2, P1, P2, R1, R2.
    repeat split; auto.
  - destruct He12 as [<-|[_ H]]; congruence.
  - destruct He12 as [<-|[H _]]; [|congruence].
    destruct Hw as (Ht & He & Hb & Hc & Hp & Hx).
    destruct e1; try discriminate; simpl.
    + rewrite <- Hc. destruct (w_child_tx w1) eqn:Ec; unfold core_equiv, ext_ready in *;
        simpl; repeat split; auto; congruence.
    + unfold core_equiv, ext_ready in *; simpl. rewrite Hc. repeat split; auto.
Qed.

Lemma senders_equiv (w1 w2 : world) : core_equiv w1 w2 -> senders w1 = senders w2.
Proof. intros (_ & He & Hb & Hc & _). unfold senders. rewrite He, Hb, Hc. reflexivity. Qed.

Lemma bridge_ready_equiv (w1 w2 : world) :
  core_equiv w1 w2 -> bridge_ready w1 = bridge_ready w2.
Proof.
  intros (_ & _ & Hb & _ & _ & Hx). unfold bridge_ready. rewrite <- Hb.
  destruct (w_bridge w1) eqn:B; auto.
  destruct Hx as [Hf|Hx]; [congruence|exact Hx].
Qed.

Lemma bridge_run_equiv (w1 w2 : world) :
  core_equiv w1 w2 -> core_equiv (bridge_run w1) (bridge_run w2).
Proof.
  intros (Ht & He & Hb & Hc & Hp & _). unfold bridge_run.
  destruct (w_ext_pending w1), (w_ext_pending w2);
    unfold core_equiv; simpl; repeat split; auto.
Qed.

Lemma core_equiv_pending (w1 w2 : world) :
  core_equiv w1 w2 -> w_pending w1 = w_pending w2.
Proof. intros (_ & _ & _ & _ & Hp & _). exact Hp. Qed.

Lemma core_equiv_set_script (s1 s2 : list env_event) (w1 w2 : world) :
  core_equiv w1 w2 -> core_equiv (set_script s1 w1) (set_script s2 w2).
Proof. unfold core_equiv, ext_ready. simpl. auto. Qed.

Lemma core_equiv_set_pending (n1 n2 : nat) (w1 w2 : world) :
  core_equiv w1 w2 -> n1 = n2 -> core_equiv (set_pending n1 w1) (set_pending n2 w2).
Proof. intros H ->. revert H. unfold core_equiv, ext_ready. simpl. intuition. Qed.

Lemma core_equiv_set_trace (t : list event) (w1 w2 : world) :
  core_equiv w1 w2 -> core_equiv (set_trace t w1) (set_trace t w2).
Proof. unfold core_equiv, ext_ready. simpl. intuition. Qed.

Lemma recv_wait_equiv (s1 s2 : list env_event) (w1 w2 : world) :
  Forall2 ev_equiv s1 s2 -> core_equiv w1 w2 ->
  fst (recv_wait s1 w1) = fst (recv_wait s2 w2) /\
  world_equiv (snd (recv_wait s1 w1)) (snd (recv_wait s2 w2)).
Proof.
  intros Hs; revert w1 w2; induction Hs as [|e1 e2 s1 s2 He Hs IH]; intros w1 w2 Hw;
    simpl; rewrite (core_equiv_pending _ _ Hw), (senders_equiv _ _ Hw),
      (bridge_ready_equiv _ _ Hw);
    destruct (w_pending w2) as [|n];
    [destruct (senders w2 =? 0); [|destruct (bridge_ready w2)]| |
     destruct (senders w2 =? 0); [|destruct (bridge_ready w2)]|].
  all: try (apply IH; apply apply_env_equiv; assumption).
  all: split; [reflexivity|]; split; simpl; [|try constructor; assumption].
  all: apply core_equiv_set_script;
    try (apply core_equiv_set_pending;
         [try apply bridge_run_equiv; exact Hw
         |first [reflexivity
                |destruct (w_ext_pending w1), (w_ext_pending w2); simpl;
                 exact (core_equiv_pending _ _ Hw)]]);
    exact Hw.
Qed.

Lemma ret_equiv {A} (a : A) : preserves_equiv (@ret SP MP A a).
Proof. intros w1 w2 H. simpl. auto. Qed.

Lemma panic_equiv {A} : preserves_equiv (@panic SP MP A).
Proof. intros w1 w2 H. simpl. auto. Qed.

Lemma bind_equiv {A B} (m : M A) (k : A -> M B) :
  preserves_equiv m -> (forall a, preserves_equiv (k a)) -> preserves_equiv (bind m k).
Proof.
  intros Hm Hk w1 w2 H. unfold bind.
  destruct (Hm w1 w2 H) as [Ho Hw].
  destruct (m w1) as [o1 w1'], (m w2) as [o2 w2']. simpl in *. subst o2.
  destruct o1 as [a| |]; simpl; auto. apply (Hk a). exact Hw.
Qed.

Lemma modify_equiv (f : world -> world) :
  (forall w1 w2, world_equiv w1 w2 -> world_equiv (f w1) (f w2)) ->
  preserves_equiv (modify f).
Proof. intros Hf w1 w2 H. simpl. auto. Qed.

Ltac equiv_fields :=
  unfold world_equiv, core_equiv, ext_ready in *; simpl in *;
  intuition congruence.

Lemma emit_equiv (e : event) : preserves_equiv (emit e).
Proof.
  apply modify_equiv. intros w1 w2 H.
  destruct H as ((Ht & ?) & ?). split; [|assumption].
  unfold core_equiv in *; simpl. rewrite Ht. intuition.
Qed.

Lemma recv_equiv : preserves_equiv recv.
Proof.
  intros w1 w2 [Hc Hs]. unfold recv.
  destruct (recv_wait_equiv _ _ _ _ Hs Hc) as [Ho Hw].
  destruct (recv_wait (w_script w1) w1) as [o1 w1'],
           (recv_wait (w_script w2) w2) as [o2 w2'].
  simpl in *. subst o2. destruct o1; simpl; auto.
  destruct Hw as [Hc' Hs']. split; [reflexivity|]. split; [|exact Hs'].
  assert (Ht' : w_trace w1' = w_trace w2') by apply Hc'.
  rewrite Ht'. apply core_equiv_set_trace. exact Hc'.
Qed.

Lemma start_op_equiv (sp : SP) : preserves_equiv (start_op sp).
Proof.
  unfold start_op. apply bind_equiv; [apply emit_equiv|intros _].
  apply bind_equiv; [apply modify_equiv; intros; equiv_fields|intros _].
  destruct (start_process sp); [apply ret_equiv|].
  apply bind_equiv; [apply modify_equiv; intros; equiv_fields|intros _].
  apply ret_equiv.
Qed.

Lemma stop_op_equiv (p : MP) : preserves_equiv (stop_op p).
Proof.
  unfold stop_op. apply bind_equiv; [apply emit_equiv|intros _].
  apply bind_equiv; [apply modify_equiv; intros; equiv_fields|intros _].
  apply bind_equiv;
    [apply modify_equiv; intros; destruct (stop_releases p); equiv_fields|intros _].
  apply ret_equiv.
Qed.

Lemma stop_all_equiv (f : nat) (l : list MP) : preserves_equiv (stop_all f l).
Proof.
  revert l; induction f as [|f IH]; intros l; simpl; [apply ret_equiv|].
  destruct (vec_pop l) as [[p r]|]; [|apply ret_equiv].
  apply bind_equiv; [apply stop_op_equiv|intros res].
  apply bind_equiv; [destruct res; apply ret_equiv|intros _]. apply IH.
Qed.

Lemma drain_loop_equiv (f : nat) : preserves_equiv (@drain_loop SP MP f).
Proof.
  induction f as [|f IH]; simpl.
  - intros w1 w2 H. simpl. auto.
  - apply bind_equiv; [apply recv_equiv|intros [[]|]]; [apply IH|apply ret_equiv].
Qed.

Lemma drain_equiv : preserves_equiv (@drain SP MP).
Proof.
  intros w1 w2 H. unfold drain.
  assert (Hb : drain_bound w1 = drain_bound w2).
  { destruct H as [Hc Hs]. unfold drain_bound.
    rewrite (core_equiv_pending _ _ Hc), (Forall2_length _ _ _ Hs). reflexivity. }
  rewrite Hb. apply drain_loop_equiv. exact H.
Qed.

Lemma start_all_equiv (specs : list SP) (running : list MP) :
  preserves_equiv (start_all specs running).
Proof.
  revert running; induction specs as [|sp specs IH]; intros running; simpl;
    [apply ret_equiv|].
  apply bind_equiv; [apply start_op_equiv|intros [p|e]]; [apply IH|].
  apply bind_equiv; [apply stop_all_equiv|intros _].
  apply bind_equiv; [apply emit_equiv|intros _].
  apply bind_equiv; [apply modify_equiv; intros; equiv_fields|intros _].
  apply bind_equiv; [apply drain_equiv|intros _]. apply ret_equiv.
Qed.

Lemma bind_modify {A} (f : world -> world) (k : unit -> M A) (w : world) :
  bind (modify f) k w = k tt (f w).
Proof. reflexivity. Qed.

Lemma run_processes_equiv (specs : list SP) (w1 w2 : world) :
  world_equiv w1 w2 -> w_bridge w1 = BridgeNotSpawned ->
  fst (run_processes specs w1) = fst (run_processes specs w2) /\
  world_equiv (snd (run_processes specs w1)) (snd (run_processes specs w2)).
Proof.
  intros H Hb. unfold run_processes.
  match goal with |- context [bind (start_all specs []) ?k w1] => set (K := k) end.
  pose proof (start_all_cases specs [] w1) as Hc.
  destruct (start_all_equiv specs [] w1 w2 H) as [Ho Hw].
  unfold bind at 1 2 3 4.
  destruct (start_all specs [] w1) as [o1 w1'], (start_all specs [] w2) as [o2 w2'].
  simpl in Ho, Hw. subst o2.
  destruct o1 as [[l|e]| |]; simpl; try (split; [reflexivity|exact Hw]).
  destruct Hc as (_ & Hok & _). destruct (Hok l eq_refl) as (_ & _ & Hb').
  subst K. cbv beta. rewrite !bind_modify.
  assert (Hw2 : world_equiv (set_bridge BridgeWaiting w1') (set_bridge BridgeWaiting w2')).
  { destruct Hw as [(Ht & He & Hbr & Hcx & Hp & Hx) Hs]. split; [|exact Hs].
    unfold core_equiv, ext_ready in *; simpl. repeat split; auto.
    right. destruct Hx as [Hf|Hx]; [congruence|exact Hx]. }
  match goal with |- fst (?m _) = fst (?m _) /\ _ =>
    assert (Hm : preserves_equiv m); [|exact (Hm _ _ Hw2)] end.
  apply bind_equiv; [apply recv_equiv|intros [[]|]]; [|apply panic_equiv].
  apply bind_equiv; [apply stop_all_equiv|intros _]. apply ret_equiv.
Qed.

Lemma ev_equiv_refl_list (l : list env_event) : Forall2 ev_equiv l l.
Proof. induction l; constructor; [left; reflexivity|exact IHl]. Qed.

Lemma init_world_equiv (s1 s2 : list env_event) :
  Forall2 ev_equiv s1 s2 ->
  world_equiv (@init_world SP MP s1) (@init_world SP MP s2).
Proof.
  intros Hs. split; [|exact Hs].
  unfold core_equiv, ext_ready; simpl. repeat split; auto.
Qed.

(** C4: closing the external shutdown input, instead of sending a value on
    it, at any point of the environment's behaviour, leaves the result of
    [run_processes] and the whole trace of engine actions (starts, stops,
    receives, sender drop) unchanged. *)
Theorem closing_input_same_as_sending (specs : list SP)
    (s1 s2 : list env_event) :
  fst (run_engine specs (s1 ++ ExtClose :: s2)) =
    fst (run_engine specs (s1 ++ ExtSend :: s2)) /\
  w_trace (snd (run_engine specs (s1 ++ ExtClose :: s2))) =
    w_trace (snd (run_engine specs (s1 ++ ExtSend :: s2))).
Proof.
  unfold run_engine, lib.run_engine.
  destruct (run_processes_equiv specs (init_world (s1 ++ ExtClose :: s2))
              (init_world (s1 ++ ExtSend :: s2))) as [Ho [Hc _]].
  - apply init_world_equiv. apply Forall2_app; [apply ev_equiv_refl_list|].
    constructor; [right; split; reflexivity|apply ev_equiv_refl_list].
  - reflexivity.
  - split; [exact Ho|apply Hc].
Qed.

Lemma apply_env_pending (e : env_event) (w : world) :
  w_pending (apply_env e w) <= S (w_pending w).
Proof. destruct e; simpl; repeat case_match; simpl; lia. Qed.

Lemma recv_wait_measure (s : list env_event) (w w' : world) (u : unit) :
  recv_wait s w = (Done (Some u), w') ->
  drain_measure (w_script w') w' < drain_measure s w.
Proof.
  revert w; induction s as [|e s IH]; intros w Hr; simpl in Hr;
    destruct (w_pending w) as [|n] eqn:Hp.
  1,3: destruct (senders w =? 0); [discriminate|];
    destruct (bridge_ready w) eqn:Hb; [|try discriminate].
  all: try (injection Hr as _ <-; unfold drain_measure; simpl;
            rewrite ?Hp; simpl; lia).
  - injection Hr as _ <-. unfold bridge_ready in Hb. unfold drain_measure, bridge_run.
    destruct (w_bridge w); try discriminate.
    destruct (w_ext_pending w); simpl; rewrite Hp; lia.
  - injection Hr as _ <-. unfold bridge_ready in Hb. unfold drain_measure, bridge_run.
    destruct (w_bridge w); try discriminate.
    destruct (w_ext_pending w); simpl; rewrite Hp; lia.
  - specialize (IH _ Hr). unfold drain_measure in *.
    rewrite apply_env_bridge in IH. pose proof (apply_env_pending e w).
    simpl. lia.
Qed.

Lemma recv_measure (w w' : world) (u : unit) :
  recv w = (Done (Some u), w') ->
  drain_measure (w_script w') w' < drain_measure (w_script w) w.
Proof.
  unfold recv. destruct (recv_wait (w_script w) w) as [[r| |] w1] eqn:Hr;
    intros H; try discriminate.
  injection H as -> <-. apply recv_wait_measure in Hr. exact Hr.
Qed.

(** Fuel beyond the measure changes nothing: the loop of [drain] is never
    cut short by its fuel. *)
Lemma drain_loop_fuel (n k : nat) (w : world) :
  drain_measure (w_script w) w < n ->
  @drain_loop SP MP (n + k) w = @drain_loop SP MP n w.
Proof.
  revert w; induction n as [|f IH]; intros w Hn; [lia|].
  simpl. unfold bind.
  destruct (recv w) as [[[[]|]| |] w'] eqn:Hr; try reflexivity.
  apply recv_measure in Hr. apply IH. lia.
Qed.

Lemma drain_fuel_enough (k : nat) (w : world) :
  @drain_loop SP MP (drain_bound w + k) w = drain w.
Proof.
  unfold drain. apply drain_loop_fuel.
  unfold drain_measure, drain_bound. destruct (w_bridge w); lia.
Qed.

Lemma recv_wait_idle_cons (e : env_event) (s : list env_event) (w : world) :
  w_pending w = 0 -> w_engine_tx w = true -> bridge_ready w = false ->
  recv_wait (e :: s) w = recv_wait s (apply_env e w).
Proof.
  intros Hp He Hb. simpl. rewrite Hp, Hb.
  assert (Hs : (senders w =? 0) = false).
  { unfold senders. rewrite He. reflexivity. }
  rewrite Hs. reflexivity.
Qed.

Lemma recv_wait_idle_nil (w : world) :
  w_pending w = 0 -> w_engine_tx w = true -> bridge_ready w = false ->
  fst (recv_wait [] w) = Blocked.
Proof.
  intros Hp He Hb. simpl. rewrite Hp, Hb.
  assert (Hs : (senders w =? 0) = false).
  { unfold senders. rewrite He. reflexivity. }
  rewrite Hs. reflexivity.
Qed.

Lemma recv_wait_bridge_fires (s : list env_event) (w : world) :
  w_pending w = 0 -> w_engine_tx w = true -> bridge_ready w = true ->
  fst (recv_wait s w) = Done (Some tt).
Proof.
  intros Hp He Hb.
  assert (Hs : (senders w =? 0) = false).
  { unfold senders. rewrite He. reflexivity. }
  destruct s; simpl; rewrite Hp, Hs, Hb; reflexivity.
Qed.

(** With no child sender left, only the external input can wake the
    receive: it returns as soon as the input has a value or is closed. *)
Lemma recv_wait_no_children (s : list env_event) (w : world) :
  w_pending w = 0 -> w_engine_tx w = true -> w_bridge w = BridgeWaiting ->
  ext_ready w = false -> w_child_tx w = 0 ->
  fst (recv_wait s w) = if existsb ext_event s then Done (Some tt) else Blocked.
Proof.
  revert w; induction s as [|e s IH]; intros w Hp He Hb Hx Hc.
  all: assert (Hr : bridge_ready w = false)
         by (unfold bridge_ready, ext_ready in *; rewrite Hb; exact Hx).
  - apply recv_wait_idle_nil; assumption.
  - rewrite recv_wait_idle_cons by assumption.
    unfold ext_ready in Hx. apply orb_false_iff in Hx as [Hx1 Hx2].
    destruct e; simpl existsb.
    + unfold apply_env. rewrite Hx2.
      apply recv_wait_bridge_fires; [exact Hp|exact He|].
      unfold bridge_ready. simpl. rewrite Hb. reflexivity.
    + unfold apply_env.
      apply recv_wait_bridge_fires; [exact Hp|exact He|].
      unfold bridge_ready. simpl. rewrite Hb, orb_true_r. reflexivity.
    + simpl. rewrite Hc. apply IH; auto. unfold ext_ready. rewrite Hx1, Hx2. reflexivity.
    + apply IH; simpl; auto; [|rewrite Hc; reflexivity].
      unfold ext_ready. simpl. rewrite Hx1, Hx2. reflexivity.
Qed.

(** Releases of child senders alone never wake the receive. *)
Lemma recv_wait_releases_only (s : list env_event) (w : world) :
  w_pending w = 0 -> w_engine_tx w = true -> w_bridge w = BridgeWaiting ->
  ext_ready w = false -> Forall (fun e => e = ChildRelease) s ->
  fst (recv_wait s w) = Blocked.
Proof.
  revert w; induction s as [|e s IH]; intros w Hp He Hb Hx Hs.
  all: assert (Hr : bridge_ready w = false)
         by (unfold bridge_ready, ext_ready in *; rewrite Hb; exact Hx).
  - apply recv_wait_idle_nil; assumption.
  - inversion Hs as [|e' s' He' Hs']. subst e.
    rewrite recv_wait_idle_cons by assumption.
    apply IH; simpl; auto.
Qed.

Lemma run_engine_wait (specs : list SP) (hs : list MP) (script : list env_event) :
  Forall2 (fun sp p => start_process sp = Ok p) specs hs ->
  fst (recv_wait script
         (set_bridge BridgeWaiting (set_child_tx (length specs)
            (set_trace (map EvStart specs) (init_world script))))) = Blocked ->
  fst (run_engine specs script) = Blocked.
Proof.
  intros Hok Hw. unfold run_engine, lib.run_engine.
  rewrite (run_processes_all_started specs hs _ Hok). cbv zeta. unfold recv. simpl.
  destruct (recv_wait script _) as [o w'] eqn:Hr. simpl in Hw. subst o. reflexivity.
Qed.

(** X5: with an empty spec list the engine starts and stops nothing; it
    returns [Ok(())] after one receive once the external input has a value
    or is closed, and otherwise keeps waiting; child events cannot wake it. *)
Theorem empty_spec_list_waits_for_external (script : list env_event) :
  let (o, w) := run_engine [] script in
  if existsb ext_event script
  then o = Done (Ok tt) /\ w_trace w = [EvRecv (Some tt)]
  else o = Blocked /\ w_trace w = [].
Proof.
  pose proof (all_started_cases [] [] script ltac:(constructor)) as Hc.
  assert (Hf : fst (run_engine [] script) =
               if existsb ext_event script then Done (Ok tt) else Blocked).
  { unfold run_engine, lib.run_engine.
    rewrite (run_processes_all_started [] [] _ ltac:(constructor)). cbv zeta.
    unfold recv.
    match goal with |- context [recv_wait ?s ?w] =>
      pose proof (recv_wait_no_children s w) as Hn end.
    simpl in Hn. specialize (Hn eq_refl eq_refl eq_refl eq_refl eq_refl).
    simpl. destruct (recv_wait script _) as [o w'] eqn:Hr. simpl in Hn. subst o.
    destruct (existsb ext_event script); reflexivity. }
  destruct (run_engine [] script) as [o w]. simpl in Hf, Hc.
  destruct (existsb ext_event script); subst o;
    destruct Hc as [[Ho Ht]|[Ho Ht]]; try discriminate; auto.
Qed.

(** X6: when every start succeeds and the environment only ever drops
    child senders (no value or closure on the external input, no child
    notification), the engine keeps waiting after the last start and
    stops nothing. *)
Theorem no_trigger_keeps_waiting (specs : list SP) (hs : list MP) (script : list env_event) :
  Forall2 (fun sp p => start_process sp = Ok p) specs hs ->
  Forall (fun e => e = ChildRelease) script ->
  let (o, w) := run_engine specs script in
  o = Blocked /\ w_trace w = map EvStart specs.
Proof.
  intros Hok Hs. pose proof (all_started_cases specs hs script Hok) as Hc.
  pose proof (run_engine_wait specs hs script Hok) as Hw.
  destruct (run_engine specs script) as [o w]. simpl in Hw.
  assert (Hb : o = Blocked).
  { apply Hw. apply recv_wait_releases_only; auto. }
  subst o. destruct Hc as [Hc|[Ho _]]; [exact Hc|discriminate].
Qed.

End EngineFacts.

(** ** Facts about src/config.rs *)

Module config_facts.

Import config.

Lemma str_split_nonempty (sep : ascii) (s : string) : str_split sep s <> [].
Proof.
  induction s as [|a s IH]; simpl; [discriminate|].
  destruct (Ascii.eqb a sep); [discriminate|].
  destruct (str_split sep s); discriminate.
Qed.

Lemma concat_cons_String (sep : string) (a : ascii) (p : string) (ps : list string) :
  String.concat sep (String a p :: ps) = String a (String.concat sep (p :: ps)).
Proof. destruct ps; reflexivity. Qed.

(** Joining the pieces with the separator gives the line back. *)
Lemma str_split_concat (sep : ascii) (s : string) :
  String.concat (String sep EmptyString) (str_split sep s) = s.
Proof.
  induction s as [|a s IH]; simpl; [reflexivity|].
  destruct (Ascii.eqb a sep) eqn:He.
  - apply Ascii.eqb_eq in He. subst a.
    pose proof (str_split_nonempty sep s) as Hn.
    destruct (str_split sep s) as [|p ps]; [congruence|].
    simpl. rewrite <- IH. reflexivity.
  - pose proof (str_split_nonempty sep s) as Hn.
    destruct (str_split sep s) as [|p ps]; [congruence|].
    rewrite concat_cons_String, IH. reflexivity.
Qed.

(** No piece contains the separator. *)
Lemma str_split_no_sep (sep : ascii) (s t : string) :
  In t (str_split sep s) -> forall i, String.get i t <> Some sep.
Proof.
  revert t; induction s as [|a s IH]; intros t Ht i; simpl in Ht.
  - destruct Ht as [<-|[]]. destruct i; discriminate.
  - destruct (Ascii.eqb a sep) eqn:He.
    + destruct Ht as [<-|Ht]; [destruct i; discriminate|exact (IH t Ht i)].
    + pose proof (str_split_nonempty sep s) as Hn.
      destruct (str_split sep s) as [|p ps] eqn:Hs; [congruence|].
      destruct Ht as [<-|Ht].
      * destruct i as [|i]; simpl.
        -- intros Ha. injection Ha as ->. rewrite Ascii.eqb_refl in He. discriminate.
        -- apply IH. left. reflexivity.
      * apply IH. right. exact Ht.
Qed.

(** C8: a bare-string command is split at every single space character,
    with no quoting: the program is the first piece and the args are the
    rest, the pieces contain no space and joined with one space give the
    line back (so runs of spaces give empty args); an array command gives
    its first element as program and the remaining elements as args.  In
    both shapes the user is [None] and the set of environment variables
    is empty. *)
Theorem normalize_simple_command :
  (forall line : string,
     exists (program : string) (args : list string),
       from_CommandLineConfig (Simple (CommandString line)) =
         Some (mkCommandConfig None ∅ program args) /\
       program :: args = str_split " "%char line /\
       String.concat " " (program :: args) = line /\
       (forall t, In t (program :: args) -> forall i, String.get i t <> Some " "%char)) /\
  (forall (program : string) (args : list string),
     from_CommandLineConfig (Simple (CommandVector (program :: args))) =
       Some (mkCommandConfig None ∅ program args)).
Proof.
  split; [|reflexivity].
  intros line. pose proof (str_split_nonempty " "%char line) as Hn.
  pose proof (str_split_concat " "%char line) as Hc.
  pose proof (str_split_no_sep " "%char line) as Hs.
  destruct (str_split " "%char line) as [|program args] eqn:Hl; [congruence|].
  exists program, args. split; [|split; [reflexivity|split; [exact Hc|exact Hs]]].
  simpl. rewrite Hl. reflexivity.
Qed.

(** C9: the [expect("Command line must not be empty")] of
    [program_and_args] never fires, since [split] always yields a first
    piece: the empty bare string, and any line starting with a space, is
    accepted with an empty program. *)
Theorem empty_command_string_gives_empty_program :
  from_CommandLineConfig (Simple (CommandString "")) =
    Some (mkCommandConfig None ∅ "" []) /\
  from_CommandLineConfig (Simple (CommandString " sleep")) =
    Some (mkCommandConfig None ∅ "" ["sleep"]) /\
  (forall line, program_and_args (CommandString line) <> None).
Proof.
  split; [reflexivity|split; [reflexivity|]].
  intros line. simpl. pose proof (str_split_nonempty " "%char line) as Hn.
  destruct (str_split " "%char line); congruence.
Qed.

Lemma str_split_length (sep : ascii) (s : string) :
  length (str_split sep s) = S (count_char sep s).
Proof.
  induction s as [|a s IH]; simpl; [reflexivity|].
  destruct (Ascii.eqb a sep); simpl; [rewrite IH; reflexivity|].
  pose proof (str_split_nonempty sep s) as Hn.
  destruct (str_split sep s); [congruence|]. exact IH.
Qed.

Lemma append_EmptyString_r (t : string) : (t ++ EmptyString)%string = t.
Proof.
  induction t as [|a t IH]; [reflexivity|].
  change (String a (t ++ EmptyString) = String a t)%string. rewrite IH. reflexivity.
Qed.

Lemma str_split_app_no_sep (sep : ascii) (t s p : string) (ps : list string) :
  (forall i, String.get i t <> Some sep) ->
  str_split sep s = p :: ps ->
  str_split sep (t ++ s) = (t ++ p)%string :: ps.
Proof.
  revert p ps; induction t as [|a t IH]; intros p ps Ht Hs; simpl; [exact Hs|].
  destruct (Ascii.eqb a sep) eqn:He.
  - apply Ascii.eqb_eq in He. subst a. exfalso. apply (Ht 0). reflexivity.
  - rewrite (IH p ps); [reflexivity| |exact Hs].
    intros i. exact (Ht (S i)).
Qed.

(** Splitting undoes joining with the separator, for pieces free of it. *)
Lemma str_split_concat_inv (sep : ascii) (toks : list string) :
  toks <> [] ->
  (forall t, In t toks -> forall i, String.get i t <> Some sep) ->
  str_split sep (String.concat (String sep EmptyString) toks) = toks.
Proof.
  induction toks as [|t rest IH]; intros Hne Hs; [congruence|].
  destruct rest as [|t' rest].
  - change (String.concat (String sep EmptyString) [t]) with t.
    replace (str_split sep t) with (str_split sep (t ++ EmptyString))
      by (rewrite append_EmptyString_r; reflexivity).
    rewrite (str_split_app_no_sep sep t EmptyString EmptyString []).
    + rewrite append_EmptyString_r. reflexivity.
    + apply Hs. left. reflexivity.
    + reflexivity.
  - change (String.concat (String sep EmptyString) (t :: t' :: rest))
      with (t ++ String sep (String.concat (String sep EmptyString) (t' :: rest)))%string.
    rewrite (str_split_app_no_sep sep t _ EmptyString (t' :: rest)).
    + rewrite append_EmptyString_r. reflexivity.
    + apply Hs. left. reflexivity.
    + assert (Hsep : forall x, str_split sep (String sep x) = EmptyString :: str_split sep x).
      { intros x. simpl. rewrite Ascii.eqb_refl. reflexivity. }
      rewrite Hsep, IH; [reflexivity|discriminate|].
      intros u Hu. apply Hs. right. exact Hu.
Qed.

(** X2: normalisation panics (the index [v[0]]) exactly on an empty array,
    bare or inside a detailed command line; every string, the empty one
    included, and every non-empty array is accepted. *)
Theorem normalize_panics_only_on_empty_array (c : CommandLineConfig) :
  from_CommandLineConfig c = None <->
  c = Simple (CommandVector []) \/
  exists u ev, c = Detailed (mkDetailedCommandLine u ev (CommandVector [])).
Proof.
  destruct c as [[line|[|x v]]|[u ev [line|[|x v]]]]; simpl.
  - pose proof (str_split_nonempty " "%char line) as Hn.
    destruct (str_split " "%char line); [congruence|].
    split; [discriminate|]. intros [H|(u & ev & H)]; discriminate.
  - split; [intros _; left; reflexivity|reflexivity].
  - split; [discriminate|]. intros [H|(u & ev & H)]; discriminate.
  - pose proof (str_split_nonempty " "%char line) as Hn.
    destruct (str_split " "%char line); [congruence|].
    split; [discriminate|]. intros [H|(u' & ev' & H)]; discriminate.
  - split; [intros _; right; exists u, ev; reflexivity|reflexivity].
  - split; [discriminate|]. intros [H|(u' & ev' & H)]; discriminate.
Qed.

(** X3: a bare-string command has exactly as many args as the line has
    space characters. *)
Theorem string_command_arg_count (line : string) :
  exists cc, from_CommandLineConfig (Simple (CommandString line)) = Some cc /\
    length (args cc) = count_char " "%char line.
Proof.
  pose proof (str_split_length " "%char line) as Hl.
  simpl. destruct (str_split " "%char line) as [|p a]; [discriminate|].
  eexists. split; [reflexivity|]. simpl in Hl. simpl. lia.
Qed.

(** X4: an array of space-free strings and the bare string that joins them
    with single spaces normalise to the same command. *)
Theorem joined_string_same_as_array (toks : list string) :
  toks <> [] ->
  (forall t, In t toks -> forall i, String.get i t <> Some " "%char) ->
  from_CommandLineConfig (Simple (CommandString (String.concat " " toks))) =
  from_CommandLineConfig (Simple (CommandVector toks)).
Proof.
  intros Hne Hs. simpl. rewrite (str_split_concat_inv " "%char toks Hne Hs).
  destruct toks; [congruence|reflexivity].
Qed.

End config_facts.

(** ** Facts about [run] *)

Section RunFacts.

Context {MP : Type}.
Variable start_process : config.ProcessConfig -> Result MP StartProcessError.
Variable stop_process : MP -> Result unit StopProcessError.
Variable stop_notifies : MP -> nat.
Variable stop_releases : MP -> bool.

Local Abbreviation engine cfg script :=
  (fst (run_engine start_process stop_process stop_notifies stop_releases
          (config.processes cfg) script)).

(** C10: [run] succeeds exactly when [run_processes] does; a start error
    [e] of the engine comes out of [run] only inside an outer error that
    carries the context message "Ground Control did not stop cleanly",
    and every failure of [run] is of that form. *)
Theorem run_wraps_engine_error (cfg : config.Config) (script : list env_event) :
  (run start_process stop_process stop_notifies stop_releases cfg script = Done (Ok tt) <->
     engine cfg script = Done (Ok tt)) /\
  (forall e, engine cfg script = Done (Err e) <->
     run start_process stop_process stop_notifies stop_releases cfg script =
       Done (Err (mkAnyhowError "Ground Control did not stop cleanly" e))) /\
  (forall err,
     run start_process stop_process stop_notifies stop_releases cfg script = Done (Err err) ->
     context_msg err = "Ground Control did not stop cleanly" /\
     engine cfg script = Done (Err (source err))).
Proof.
  unfold run.
  destruct (engine cfg script) as [[[]|e]| |]; simpl.
  - split; [tauto|split].
    + intros e; split; discriminate.
    + intros err; discriminate.
  - split; [split; discriminate|split].
    + intros e'; split.
      * intros H; injection H as ->; reflexivity.
      * intros H; injection H as ->; reflexivity.
    + intros err H; injection H as <-; split; reflexivity.
  - split; [split; discriminate|split; [intros e; split; discriminate|discriminate]].
  - split; [split; discriminate|split; [intros e; split; discriminate|discriminate]].
Qed.

End RunFacts.

(** * The theorems at the concrete instance *)

Lemma teardown_reverse_of_startup_witness :
  Forall2 (fun sp p => ex_start sp = Ok p) [0; 1] [10; 11] /\
  (existsb ext_event [ChildRelease; ChildNotify] = true \/
   child_trigger (length [10; 11]) [ChildRelease; ChildNotify] = true) /\
  (let (o, w) := run_engine ex_start ex_stop ex_notifies ex_releases [0; 1]
                   [ChildRelease; ChildNotify] in
   o = Done (Ok tt) /\
   w_trace w = map EvStart [0; 1] ++ EvRecv (Some tt) :: map EvStop (rev [10; 11])).
Proof.
  split; [repeat constructor|]. split; [right; reflexivity|].
  apply (teardown_reverse_of_startup ex_start ex_stop ex_notifies ex_releases
           [0; 1] [10; 11] [ChildRelease; ChildNotify]).
  - repeat constructor.
  - right. reflexivity.
Defined.

Lemma first_trigger_wins_witness :
  Forall2 (fun sp p => ex_start sp = Ok p) [0; 1] [10; 11] /\
  (ChildNotify = ExtSend \/ ChildNotify = ExtClose \/
   (ChildNotify = ChildNotify /\ [10; 11] <> [])) /\
  (let (o, w) := run_engine ex_start ex_stop ex_notifies ex_releases [0; 1]
                   [ChildNotify; ExtSend; ChildNotify] in
   o = Done (Ok tt) /\
   w_trace w = map EvStart [0; 1] ++ EvRecv (Some tt) :: map EvStop (rev [10; 11]) /\
   length (filter is_recv (w_trace w)) = 1).
Proof.
  split; [repeat constructor|].
  split; [right; right; split; [reflexivity|discriminate]|].
  apply (first_trigger_wins ex_start ex_stop ex_notifies ex_releases
           [0; 1] [10; 11] ChildNotify [ExtSend; ChildNotify]).
  - repeat constructor.
  - right; right; split; [reflexivity|discriminate].
Defined.

Lemma rollback_after_failed_start_witness :
  Forall2 (fun sp p => ex_start sp = Ok p) [0; 1] [10; 11] /\
  ex_start 2 = Err PreRunFailed /\
  (let (o, w) := run_engine ex_start ex_stop ex_notifies ex_releases
                   ([0; 1] ++ 2 :: [3]) [ExtSend] in
   (o = Done (Err PreRunFailed) \/ o = Blocked) /\
   exists rest,
     w_trace w = map EvStart ([0; 1] ++ [2]) ++ map EvStop (rev [10; 11]) ++
                 EvDropSender :: rest /\
     Forall (fun ev => exists r, ev = EvRecv r) rest).
Proof.
  split; [repeat constructor|]. split; [reflexivity|].
  apply (rollback_after_failed_start ex_start ex_stop ex_notifies ex_releases
           [0; 1] [3] 2 [10; 11] PreRunFailed [ExtSend]).
  - repeat constructor.
  - reflexivity.
Defined.

Lemma rollback_drain_terminates_witness :
  Forall2 (fun sp p => ex_start sp = Ok p) [0; 1] [10; 11] /\
  ex_start 2 = Err PreRunFailed /\
  (forall p, ex_releases p = true) /\
  exists w n,
    run_engine ex_start ex_stop ex_notifies ex_releases ([0; 1] ++ 2 :: [3]) [] =
      (Done (Err PreRunFailed), w) /\
    w_trace w = map EvStart ([0; 1] ++ [2]) ++ map EvStop (rev [10; 11]) ++
                EvDropSender :: repeat (EvRecv (Some tt)) n ++ [EvRecv None].
Proof.
  split; [repeat constructor|]. split; [reflexivity|].
  split; [intros p; reflexivity|].
  apply (rollback_drain_terminates ex_start ex_stop ex_notifies ex_releases
           [0; 1] [3] 2 [10; 11] PreRunFailed []).
  - repeat constructor.
  - reflexivity.
  - intros p; reflexivity.
Defined.

Lemma joined_string_same_as_array_witness :
  ["/app/run-me.sh"; "using"; "args"] <> [] /\
  (forall t, In t ["/app/run-me.sh"; "using"; "args"] ->
     forall i, String.get i t <> Some " "%char) /\
  config.from_CommandLineConfig
    (config.Simple (config.CommandString (String.concat " " ["/app/run-me.sh"; "using"; "args"]))) =
  config.from_CommandLineConfig
    (config.Simple (config.CommandVector ["/app/run-me.sh"; "using"; "args"])).
Proof.
  assert (Hs : forall t, In t ["/app/run-me.sh"; "using"; "args"] ->
            forall i, String.get i t <> Some " "%char).
  { intros t Ht i. simpl in Ht.
    destruct Ht as [<-|[<-|[<-|[]]]];
      do 15 (destruct i as [|i]; [simpl; discriminate|]); simpl; discriminate. }
  split; [discriminate|]. split; [exact Hs|].
  apply (config_facts.joined_string_same_as_array ["/app/run-me.sh"; "using"; "args"]);
    [discriminate|exact Hs].
Defined.

Lemma no_trigger_keeps_waiting_witness :
  Forall2 (fun sp p => ex_start sp = Ok p) [0; 1] [10; 11] /\
  Forall (fun e => e = ChildRelease) [ChildRelease; ChildRelease] /\
  (let (o, w) := run_engine ex_start ex_stop ex_notifies ex_releases [0; 1]
                   [ChildRelease; ChildRelease] in
   o = Blocked /\ w_trace w = map EvStart [0; 1]).
Proof.
  split; [repeat constructor|]. split; [repeat constructor|].
  apply (no_trigger_keeps_waiting ex_start ex_stop ex_notifies ex_releases
           [0; 1] [10; 11] [ChildRelease; ChildRelease]); repeat constructor.
Defined.
